(** * dwmaya: sequencer tracks, UDIM texture paths and material assignments

    A shallow embedding of functions of the [dwmaya] package and of the
    helpers they call:

    - [__track.py]: [list_track_shots], [tracks_to_lists],
      [find_track_with_free_range], [list_track_titles],
      [list_used_sequencer_track_indexes], [remove_unused_sequencer_tracks],
      [list_shots_on_sequencer_track], [find_track_index];
    - [shading.py]: [get_udim_filepaths] and the three UDIM patterns,
      [list_texture_attributes], [list_texture_filepaths],
      [apply_materials_assignment_to_transfom_childs].

    The Maya scene is an explicit value ([Track.scene]); the Python list
    objects built by [tracks_to_lists] live in an explicit store, because the
    outer list is built by repetition and its cells alias one object; so
    does the list a call of [get_udim_filepaths] creates and returns.  The
    file system is seen only through [glob.glob], which is an argument of the
    embedding; the patterns it is called with are recorded.  What Maya
    answers ([getAttr], [listAttr], [objExists], track titles) is an
    argument too, and a function that only issues Maya commands is the list
    of the commands it issues.  Python exceptions are results of the
    embedding. *)

From Stdlib Require Import ZArith QArith Lqa List String Ascii Bool Lia Sorted.
From stdpp Require Import base list gmap.

Local Open Scope Z_scope.

(** ** Python primitives *)

Module Py.

(** The two exceptions the modelled code can raise. *)
Inductive exn : Set := IndexError | ValueError.

Inductive result (A : Type) : Type :=
| Return (a : A)
| Raise (e : exn).
Arguments Return {A} a.
Arguments Raise {A} e.

Definition bind {A B : Type} (m : result A) (k : A -> result B) : result B :=
  match m with
  | Return a => k a
  | Raise e => Raise e
  end.

(** [l[i]] on a Python list: a negative index counts from the end, an index
    outside [-len, len) raises [IndexError]. *)
Definition getitem {A : Type} (l : list A) (i : Z) : result A :=
  let n := Z.of_nat (length l) in
  let j := if i <? 0 then i + n else i in
  if (0 <=? j) && (j <? n)
  then match l !! Z.to_nat j with
       | Some x => Return x
       | None => Raise IndexError
       end
  else Raise IndexError.

(** [[x] * n]: [n] cells holding the same value; empty when [n <= 0]. *)
Definition list_repeat {A : Type} (x : A) (n : Z) : list A :=
  replicate (Z.to_nat n) x.

(** *** Strings *)

Definition newline : ascii := ascii_of_nat 10.

Definition is_upper (c : ascii) : bool :=
  (65 <=? nat_of_ascii c)%nat && (nat_of_ascii c <=? 90)%nat.

Definition is_digit (c : ascii) : bool :=
  (48 <=? nat_of_ascii c)%nat && (nat_of_ascii c <=? 57)%nat.

(** The upper-case letters among the code points 128 to 255: [U+00C0] to
    [U+00DE] but the multiplication sign [U+00D7]. *)
Definition is_upper_latin1 (c : ascii) : bool :=
  (192 <=? nat_of_ascii c)%nat && (nat_of_ascii c <=? 222)%nat
  && negb (nat_of_ascii c =? 215)%nat.

Definition lower_char (c : ascii) : ascii :=
  if is_upper c || is_upper_latin1 c
  then ascii_of_nat (nat_of_ascii c + 32) else c.

(** [s.lower()].  A character is a code point below 256: the letters
    [A]-[Z] and the upper-case letters of [is_upper_latin1] go to the
    code point 32 above, every other character is kept, as [str.lower]
    does on these code points.  A string with a code point from 256 on is
    outside the embedding. *)
Fixpoint lower (s : string) : string :=
  match s with
  | EmptyString => EmptyString
  | String c s' => String (lower_char c) (lower s')
  end.

(** [s.find(sub)]: the lowest index at which [sub] occurs in [s]. *)
Fixpoint find (sub s : string) : option nat :=
  if String.prefix sub s then Some 0%nat
  else match s with
       | EmptyString => None
       | String _ s' => option_map S (find sub s')
       end.

(** [sub in s]. *)
Definition contains (sub s : string) : bool :=
  match find sub s with Some _ => true | None => false end.

(** [s.index(sub)]: as [find], but [ValueError] when [sub] is absent. *)
Definition index (sub s : string) : result Z :=
  match find sub s with
  | Some i => Return (Z.of_nat i)
  | None => Raise ValueError
  end.

Fixpoint rfind_from (i : Z) (c : ascii) (s : string) (acc : Z) : Z :=
  match s with
  | EmptyString => acc
  | String d s' => rfind_from (i + 1) c s' (if Ascii.eqb d c then i else acc)
  end.

(** [s.rfind(c)] for a one-character [c]: the highest index, or [-1]. *)
Definition rfind (c : ascii) (s : string) : Z := rfind_from 0 c s (-1).

Fixpoint take (n : nat) (s : string) : string :=
  match n, s with
  | S n', String c s' => String c (take n' s')
  | _, _ => EmptyString
  end.

Fixpoint drop (n : nat) (s : string) : string :=
  match n, s with
  | S n', String _ s' => drop n' s'
  | _, _ => s
  end.

(** A slice bound [i] of a string of length [n], as Python clamps it. *)
Definition clamp (n : nat) (i : Z) : nat :=
  let j := if i <? 0 then i + Z.of_nat n else i in
  Z.to_nat (Z.min (Z.max j 0) (Z.of_nat n)).

(** [s[:i]] and [s[i:]]. *)
Definition slice_to (s : string) (i : Z) : string :=
  take (clamp (String.length s) i) s.

Definition slice_from (s : string) (i : Z) : string :=
  drop (clamp (String.length s) i) s.

(** [s.replace(a, b)] for one-character [a] and [b]. *)
Fixpoint replace (a b : ascii) (s : string) : string :=
  match s with
  | EmptyString => EmptyString
  | String c s' => String (if Ascii.eqb c a then b else c) (replace a b s')
  end.

(** *** [os.path.splitext] *)

Inductive os_name : Set := posix | nt.

Definition sep (os : os_name) : ascii :=
  match os with posix => "/"%char | nt => "\"%char end.

Definition altsep (os : os_name) : option ascii :=
  match os with posix => None | nt => Some "/"%char end.

Definition extsep : ascii := "."%char.

(** The [while filenameIndex < dotIndex] loop of [genericpath._splitext];
    [n] is [dotIndex - filenameIndex].  [true]: a character that is not a
    dot was found, so the path has an extension. *)
Fixpoint skip_leading_dots (n : nat) (p : string) (filenameIndex : nat) : bool :=
  match n with
  | O => false
  | S n' =>
      match String.get filenameIndex p with
      | Some c =>
          if negb (Ascii.eqb c extsep) then true
          else skip_leading_dots n' p (S filenameIndex)
      | None => true
      end
  end.

Definition splitext (os : os_name) (p : string) : string * string :=
  let sepIndex := rfind (sep os) p in
  let sepIndex :=
    match altsep os with
    | Some a => Z.max sepIndex (rfind a p)
    | None => sepIndex
    end in
  let dotIndex := rfind extsep p in
  if (sepIndex <? dotIndex)
     && skip_leading_dots (Z.to_nat (dotIndex - (sepIndex + 1))) p
          (Z.to_nat (sepIndex + 1))
  then (slice_to p dotIndex, slice_from p dotIndex)
  else (p, EmptyString).

(** *** The fragment of [re] the patterns use

    A pattern is a sequence of items: one atom, an atom repeated between
    [lo] and [hi] times ([hi = None]: no upper bound), or the anchor [$].
    The matcher backtracks over the repetition counts; whether a match
    exists does not depend on the order in which they are tried. *)

Inductive atom : Set :=
| Lit (c : ascii)      (* the character itself *)
| Dot                  (* [.]: any character but a newline *)
| Digit.               (* [\d] *)

Inductive item : Set :=
| One (a : atom)
| Rep (a : atom) (lo : nat) (hi : option nat)
| Eol.                 (* [$] *)

Definition regex := list item.

Definition atom_ok (a : atom) (c : ascii) : bool :=
  match a with
  | Lit d => Ascii.eqb c d
  | Dot => negb (Ascii.eqb c newline)
  | Digit => is_digit c
  end.

(** [$]: at the end of the string, or just before a newline that ends it. *)
Definition at_eol (s : string) : bool :=
  match s with
  | EmptyString => true
  | String c EmptyString => Ascii.eqb c newline
  | _ => false
  end.

Definition exhausted (hi : option nat) : bool :=
  match hi with Some O => true | _ => false end.

(** Does [r] match a prefix of [s]? *)
Fixpoint match_here (r : regex) : string -> bool :=
  match r with
  | [] => fun _ => true
  | Eol :: r' => fun s => at_eol s && match_here r' s
  | One a :: r' =>
      fun s =>
        match s with
        | String c s' => atom_ok a c && match_here r' s'
        | EmptyString => false
        end
  | Rep a lo hi :: r' =>
      fun s =>
        (fix rep (s : string) (lo : nat) (hi : option nat) {struct s} : bool :=
           (Nat.eqb lo 0 && match_here r' s)
           || match s with
              | String c s' =>
                  atom_ok a c && negb (exhausted hi)
                  && rep s' (Nat.pred lo) (option_map Nat.pred hi)
              | EmptyString => false
              end) s lo hi
  end.

(** [re.compile(r).match(s)], as a truth value: a match at position 0. *)
Definition re_match (r : regex) (s : string) : bool := match_here r s.

(** The start of the leftmost match of [r] in [s]. *)
Fixpoint first_match (r : regex) (s : string) : option nat :=
  if match_here r s then Some 0%nat
  else match s with
       | EmptyString => None
       | String _ s' => option_map S (first_match r s')
       end.

(** [re.split(r, s)[0]]: the text before the leftmost match, the whole
    string when there is none. *)
Definition re_split_head (r : regex) (s : string) : string :=
  match first_match r s with
  | Some i => take i s
  | None => s
  end.

Definition lits (s : string) : regex :=
  map (fun c => One (Lit c)) (list_ascii_of_string s).

End Py.

Import Py.

#[global] Instance result_bind : MBind result :=
  fun A B k m => Py.bind m k.

(** ** [__track.py] *)

Module Track.

(** A shot node with the three attributes the module reads.  Frames are
    finite doubles; they are held as the rationals they denote, which
    compare as the doubles do. *)
Record shot : Type := Shot {
  shot_name : string;
  track : Z;
  sequenceStartFrame : Q;
  sequenceEndFrame : Q
}.

(** The scene: [cmds.ls(type="shot")] and
    [cmds.shotTrack(query=True, numTracks=True)]. *)
Record scene : Type := Scene {
  ls_shot : list shot;
  numTracks : Z
}.

(** [list_track_shots(track)]. *)
Definition list_track_shots (sc : scene) (t : Z) : list shot :=
  List.filter (fun s => track s =? t) (ls_shot sc).

(** The store of Python list objects; a reference is a position in it. *)
Abbreviation ref := nat.
Abbreviation heap := (list (list shot)).

Definition alloc (h : heap) (v : list shot) : ref * heap :=
  (length h, h ++ [v]).

Definition deref (h : heap) (r : ref) : list shot :=
  default [] (h !! r).

(** [r.append(x)]: the object is changed in place. *)
Definition append (h : heap) (r : ref) (x : shot) : heap :=
  <[r := deref h r ++ [x]]> h.

(** The [for shot in shots] loop of [tracks_to_lists]. *)
Fixpoint fill_loop (tracks : list ref) (shots : list shot) (h : heap)
  : result heap :=
  match shots with
  | [] => Return h
  | shot :: shots' =>
      let track := track shot - 1 in
      r ← getitem tracks track;
      fill_loop tracks shots' (append h r shot)
  end.

(** [tracks_to_lists()]: the outer list and the store its cells point to.
    [[[]] * n] evaluates [[]] once, so one object is allocated. *)
Definition tracks_to_lists (sc : scene) : result (list ref * heap) :=
  let shots := ls_shot sc in
  let '(r, h) := alloc [] [] in
  let tracks := list_repeat r (numTracks sc) in
  h' ← fill_loop tracks shots h;
  Return (tracks, h').

(** The test of lines 47-49. *)
Definition overlaps (start_frame end_frame : Q) (shot : shot) : bool :=
  let shot_start_frame := sequenceStartFrame shot in
  let shot_end_frame := sequenceEndFrame shot in
  (Qle_bool start_frame shot_start_frame && Qle_bool shot_start_frame end_frame)
  || (Qle_bool start_frame shot_end_frame && Qle_bool shot_end_frame end_frame).

(** The [for shot in track] loop; [true] when it ends without [break], that
    is when its [else] clause runs. *)
Fixpoint shot_loop (start_frame end_frame : Q) (track : list shot) : bool :=
  match track with
  | [] => true
  | shot :: track' =>
      if overlaps start_frame end_frame shot then false
      else shot_loop start_frame end_frame track'
  end.

(** The [for i, track in enumerate(...)] loop, from index [i] on. *)
Fixpoint track_loop (start_frame end_frame : Q) (h : heap) (i : Z)
    (tracks : list ref) : option Z :=
  match tracks with
  | [] => None
  | track :: tracks' =>
      if shot_loop start_frame end_frame (deref h track)
      then Some (i + 1)
      else track_loop start_frame end_frame h (i + 1) tracks'
  end.

Definition find_track_with_free_range (sc : scene) (start_frame end_frame : Q)
  : result (option Z) :=
  '(tracks, h) ← tracks_to_lists sc;
  Return (track_loop start_frame end_frame h 0 tracks).

(** Every shot sits on an existing track. *)
Definition valid_shots (sc : scene) : Prop :=
  Forall (fun s => 1 <= track s <= numTracks sc) (ls_shot sc).

(** The documented behaviour, track by track: the first track, counted
    from 1, none of whose own shots ([list_track_shots]) overlaps. *)
Fixpoint first_free_track (sc : scene) (start_frame end_frame : Q)
    (n : nat) (t : Z) : option Z :=
  match n with
  | O => None
  | S n' =>
      if existsb (overlaps start_frame end_frame) (list_track_shots sc t)
      then first_free_track sc start_frame end_frame n' (t + 1)
      else Some t
  end.

Definition free_track_documented (sc : scene) (start_frame end_frame : Q)
  : option Z :=
  first_free_track sc start_frame end_frame (Z.to_nat (numTracks sc)) 1.

(** *** Tracks by index and by title *)

(** [range(1, n + 1)] and [range(n, 0, -1)]. *)
Definition range_up (n : Z) : list Z := seqZ 1 n.

Definition range_down (n : Z) : list Z := reverse (seqZ 1 n).

(** [list_shots_on_sequencer_track(index)]. *)
Definition list_shots_on_sequencer_track (sc : scene) (index : Z) : list shot :=
  List.filter (fun s => track s =? index) (ls_shot sc).

(** [list_track_titles()]; [title i] is the answer of
    [cmds.shotTrack(track=i, query=True, title=True)]. *)
Definition list_track_titles (sc : scene) (title : Z -> string) : list string :=
  map title (range_up (numTracks sc)).

(** The loop of [find_track_index]; [None] when it ends without [return]. *)
Fixpoint find_track_index_loop (title : Z -> string) (track_title : string)
    (indexes : list Z) : option Z :=
  match indexes with
  | [] => None
  | i :: indexes' =>
      if String.eqb (title i) track_title then Some i
      else find_track_index_loop title track_title indexes'
  end.

Definition find_track_index (sc : scene) (title : Z -> string)
    (track_title : string) : option Z :=
  find_track_index_loop title track_title (range_down (numTracks sc)).

(** [list_used_sequencer_track_indexes()]: the tracks of the shots, through
    a [set].  [cmds.shot(shot, track=True, query=True)] is read as the
    [track] attribute. *)
Definition list_used_sequencer_track_indexes (sc : scene) : list Z :=
  elements (list_to_set (map track (ls_shot sc)) : gset Z).

(** The loop of [remove_unused_sequencer_tracks]: the tracks handed to
    [cmds.shotTrack(removeTrack=i)], in the order of the calls. *)
Fixpoint remove_unused_loop (used_tracks_indexes : list Z) (indexes : list Z)
  : list Z :=
  match indexes with
  | [] => []
  | i :: indexes' =>
      if bool_decide (i ∈ used_tracks_indexes)
      then remove_unused_loop used_tracks_indexes indexes'
      else i :: remove_unused_loop used_tracks_indexes indexes'
  end.

Definition remove_unused_sequencer_tracks (sc : scene) : list Z :=
  let used_tracks_indexes := list_used_sequencer_track_indexes sc in
  remove_unused_loop used_tracks_indexes (range_down (numTracks sc)).

End Track.

(** ** [shading.py] *)

Module Shading.

Local Open Scope string_scope.

(** [r'\.1001\..{2,4}$'] *)
Definition UDIM_EXTENSION_PATTERN : regex :=
  (lits ".1001." ++ [Rep Dot 2 (Some 4%nat); Eol])%list.

(** [r'_u<u>_v<v>'] *)
Definition UDIM_UV_PATTERN : string := "_u<u>_v<v>".

(** [r'_u\d_v\d'] *)
Definition UDIM_UV_RE_PATTERN : regex :=
  (lits "_u" ++ [One Digit] ++ lits "_v" ++ [One Digit])%list.

Definition any_star : regex := [Rep Dot 0 None].

(** [extension = os.path.splitext(path)[-1]] *)
Definition extension_of (os : os_name) (path : string) : string :=
  snd (splitext os path).

(** Lines 176-182: the value of [path_start_length] when line 183 is
    reached, [None] when no branch assigned it. *)
Definition path_start_length (os : os_name) (path : string)
  : result (option Z) :=
  let extension := extension_of os path in
  if re_match UDIM_EXTENSION_PATTERN path then
    n ← index ("1001" ++ extension) (lower path); Return (Some n)
  else if contains UDIM_UV_PATTERN (lower path) then
    n ← index UDIM_UV_PATTERN (lower path); Return (Some n)
  else if re_match (any_star ++ UDIM_UV_RE_PATTERN ++ any_star)%list path then
    Return (Some (Z.of_nat (String.length
                              (re_split_head UDIM_UV_RE_PATTERN path))))
  else Return None.

(** [if path_start_length:] *)
Definition truthy (v : option Z) : bool :=
  match v with
  | Some n => negb (n =? 0)%Z
  | None => false
  end.

(** What a call does: the patterns handed to [glob.glob], in order, and the
    value returned or the exception raised. *)
Record run : Type := Run {
  globbed : list string;
  outcome : result (list string)
}.

(** [get_udim_filepaths(path)]; [glob] is [glob.glob] on the directory
    state of the call. *)
Definition get_udim_filepaths (os : os_name) (glob : string -> list string)
    (path : string) : run :=
  let extension := extension_of os path in
  match path_start_length os path with
  | Raise e => Run [] (Raise e)
  | Return v =>
      if truthy v then
        let pattern := slice_to path (default 0%Z v) ++ "*" ++ extension in
        Run [pattern]
            (Return (map (replace "\"%char "/"%char) (glob pattern)))
      else Run [] (Return [])
  end.

(** The first branch as the pattern's [$] and the other branch's ['.*']
    prefix describe it: the pattern found somewhere in the path. *)
Definition ends_like_udim (path : string) : bool :=
  match first_match UDIM_EXTENSION_PATTERN path with
  | Some _ => true
  | None => false
  end.

(** *** The list a call returns, as an object

    [get_udim_filepaths] run in a store of Python list objects: the call
    creates its list [udim_paths] (line 174), appends to it in place (line
    186) and returns it (line 187). *)

Abbreviation store := (list (list string)).

(** [[]]: a new object, behind the ones there are. *)
Definition new_list (h : store) : nat * store :=
  (length h, (h ++ [[]])%list).

Definition list_of (h : store) (r : nat) : list string :=
  default [] (h !! r).

(** [r.append(x)]. *)
Definition list_append (h : store) (r : nat) (x : string) : store :=
  <[r := (list_of h r ++ [x])%list]> h.

(** The [for path in glob.glob(pattern)] loop. *)
Fixpoint append_loop (udim_paths : nat) (paths : list string) (h : store)
  : store :=
  match paths with
  | [] => h
  | path :: paths' =>
      append_loop udim_paths paths'
        (list_append h udim_paths (replace "\"%char "/"%char path))
  end.

(** One call, from the store [h]: the object returned or the exception
    raised, and the store the call leaves. *)
Definition get_udim_filepaths_call (os : os_name)
    (glob : string -> list string) (path : string) (h : store)
  : result nat * store :=
  let '(udim_paths, h) := new_list h in
  let extension := extension_of os path in
  match path_start_length os path with
  | Raise e => (Raise e, h)
  | Return v =>
      if truthy v then
        let pattern := slice_to path (default 0%Z v) ++ "*" ++ extension in
        (Return udim_paths, append_loop udim_paths (glob pattern) h)
      else (Return udim_paths, h)
  end.

(** What the caller holds after a call: the paths in the list returned, or
    the exception. *)
Definition returned (c : result nat * store) : result (list string) :=
  match fst c with
  | Return r => Return (list_of (snd c) r)
  | Raise e => Raise e
  end.

(** *** Texture attributes and their file paths *)

(** The loop of [list_texture_attributes(shading_engines)].  [history] is
    the list [mc.listHistory(shaders)] returns; [listAttr node] is
    [mc.listAttr(node, usedAsFilename=True)], [None] when Maya has nothing
    to list. *)
Fixpoint texture_attributes_loop (listAttr : string -> option (list string))
    (history : list string) (texture_attributes : list string) : list string :=
  match history with
  | [] => texture_attributes
  | node :: history' =>
      texture_attributes_loop listAttr history'
        (texture_attributes
         ++ map (fun a => (node ++ "." ++ a)%string)
              (default [] (listAttr node)))%list
  end.

Definition list_texture_attributes (listAttr : string -> option (list string))
    (history : list string) : list string :=
  texture_attributes_loop listAttr history [].

(** [if filepath:] on what [mc.getAttr] returns for a string attribute. *)
Definition nonempty (filepath : option string) : bool :=
  match filepath with
  | Some p => negb (String.eqb p "")
  | None => false
  end.

(** The body of the [try] of [list_texture_filepaths]: the list [textures]
    after it, or the exception that leaves it. *)
Definition texture_try (os : os_name) (glob : string -> list string)
    (getAttr : string -> result (option string)) (attribute : string)
    (textures : list string) : result (list string) :=
  filepath ← getAttr attribute;
  if nonempty filepath then
    udim_paths ← outcome (get_udim_filepaths os glob (default "" filepath));
    match udim_paths with
    | [] => Return (textures ++ [default "" filepath])%list
    | _ :: _ => Return (textures ++ udim_paths)%list
    end
  else Return textures.

(** The [for attribute in ...] loop with its [except ValueError] clause. *)
Fixpoint texture_filepaths_loop (os : os_name) (glob : string -> list string)
    (getAttr : string -> result (option string)) (attributes : list string)
    (textures : list string) : result (list string) :=
  match attributes with
  | [] => Return textures
  | attribute :: attributes' =>
      match texture_try os glob getAttr attribute textures with
      | Return textures' =>
          texture_filepaths_loop os glob getAttr attributes' textures'
      | Raise ValueError =>
          if negb (contains "." attribute) then Raise ValueError
          else texture_filepaths_loop os glob getAttr attributes' textures
      | Raise e => Raise e
      end
  end.

(** [list_texture_filepaths(shading_engines)]. *)
Definition list_texture_filepaths (os : os_name) (glob : string -> list string)
    (getAttr : string -> result (option string))
    (listAttr : string -> option (list string)) (history : list string)
  : result (list string) :=
  texture_filepaths_loop os glob getAttr
    (list_texture_attributes listAttr history) [].


(** *** Mesh paths of a material assignment *)

(** [s.split(c)] for a one-character [c]: never empty. *)
Fixpoint split (c : ascii) (s : string) : list string :=
  match s with
  | EmptyString => [""]
  | String d s' =>
      if Ascii.eqb d c then "" :: split c s'
      else match split c s' with
           | piece :: pieces => String d piece :: pieces
           | [] => [String d ""]
           end
  end.

(** [c.join(l)]. *)
Fixpoint join (c : ascii) (l : list string) : string :=
  match l with
  | [] => ""
  | [x] => x
  | x :: l' => x ++ String c (join c l')
  end.

Fixpoint lstrip (c : ascii) (s : string) : string :=
  match s with
  | EmptyString => ""
  | String d s' => if Ascii.eqb d c then lstrip c s' else s
  end.

Fixpoint rstrip (c : ascii) (s : string) : string :=
  match s with
  | EmptyString => ""
  | String d s' =>
      match rstrip c s' with
      | EmptyString => if Ascii.eqb d c then "" else String d ""
      | r => String d r
      end
  end.

(** [s.strip(c)] for a one-character [c]. *)
Definition strip (c : ascii) (s : string) : string := rstrip c (lstrip c s).

(** [l[-1]] on the list a [split] returns. *)
Definition last_piece (l : list string) : string := List.last l "".

(** Lines 85-88, for one mesh: every element of the path gets the
    namespace, in place of the ones it had. *)
Definition with_namespace (namespace mesh : string) : string :=
  join "|"
    (map (fun element =>
            join ":" [strip ":" namespace; last_piece (split ":" element)])
       (split "|" mesh)).

(** ['|{0}|{1}'.format(transform.strip('|'), m.strip('|'))] *)
Definition child_path (transform m : string) : string :=
  "|" ++ strip "|" transform ++ "|" ++ strip "|" m.

(** [if namespace:] *)
Definition given (namespace : option string) : bool :=
  match namespace with
  | Some ns => negb (String.eqb ns "")
  | None => false
  end.

(** [apply_materials_assignment_to_transfom_childs]: the arguments of the
    calls of [assign_material], in order.  [assignments] is the dictionary
    as [items()] walks it; [objExists] is [mc.objExists]. *)
Definition apply_materials_assignment_to_transfom_childs
    (objExists : string -> bool) (assignments : list (string * list string))
    (transform : string) (skip_missing_objects : bool)
    (namespace : option string) : list (string * list string) :=
  map (fun '(shading_engine, meshes) =>
         let meshes :=
           if given namespace
           then map (with_namespace (default "" namespace)) meshes
           else meshes in
         let meshes := map (child_path transform) meshes in
         let meshes :=
           if skip_missing_objects then List.filter objExists meshes
           else meshes in
         (shading_engine, meshes))
    assignments.

End Shading.

(** ** Sequencer tracks: proofs *)

Section TrackProofs.

Import Track.

Lemma getitem_replicate_cases {A : Type} (x : A) (n : nat) (i : Z) :
  getitem (replicate n x) i = Return x
  \/ getitem (replicate n x) i = Raise IndexError.
Proof.
  unfold getitem.
  destruct (_ && _); [| by right].
  destruct (replicate n x !! _) as [y|] eqn:E; [| by right].
  apply lookup_replicate in E as [-> _]. by left.
Qed.

Lemma getitem_replicate {A : Type} (x : A) (n : nat) (i : Z) :
  - Z.of_nat n <= i < Z.of_nat n ->
  getitem (replicate n x) i = Return x.
Proof.
  intros Hi. unfold getitem. rewrite length_replicate.
  assert (Hj : 0 <= (if i <? 0 then i + Z.of_nat n else i) < Z.of_nat n)
    by (destruct (Z.ltb_spec i 0); lia).
  destruct Hj as [Hj1 Hj2].
  rewrite (proj2 (Z.leb_le _ _) Hj1), (proj2 (Z.ltb_lt _ _) Hj2). simpl.
  rewrite lookup_replicate_2; [done | lia].
Qed.

(** With every cell pointing to the one object, the loop appends every shot
    to that object, whatever track the shot is on. *)
Lemma fill_loop_cases (n : nat) (shots l : list shot) :
  fill_loop (replicate n 0%nat) shots [l] = Return [l ++ shots]
  \/ fill_loop (replicate n 0%nat) shots [l] = Raise IndexError.
Proof.
  revert l. induction shots as [| s shots IH]; intros l; simpl.
  - left. by rewrite app_nil_r.
  - destruct (getitem_replicate_cases 0%nat n (track s - 1)) as [-> | ->];
      [| by right].
    simpl. unfold append, deref. simpl.
    destruct (IH (l ++ [s])) as [-> | ->]; [left | by right].
    by rewrite <- app_assoc.
Qed.

Lemma fill_loop_valid (n : nat) (shots l : list shot) :
  Forall (fun s => 1 <= track s <= Z.of_nat n) shots ->
  fill_loop (replicate n 0%nat) shots [l] = Return [l ++ shots].
Proof.
  revert l. induction shots as [| s shots IH]; intros l Hv; simpl.
  - by rewrite app_nil_r.
  - inversion Hv as [| ? ? Hs Hv']; subst.
    rewrite getitem_replicate by lia.
    simpl. unfold append, deref. simpl.
    rewrite IH by done. by rewrite <- app_assoc.
Qed.

Lemma tracks_to_lists_cases (sc : scene) :
  tracks_to_lists sc
  = Return (list_repeat 0%nat (numTracks sc), [ls_shot sc])
  \/ tracks_to_lists sc = Raise IndexError.
Proof.
  unfold tracks_to_lists, list_repeat. simpl.
  destruct (fill_loop_cases (Z.to_nat (numTracks sc)) (ls_shot sc) [])
    as [-> | ->]; [by left | by right].
Qed.

Lemma tracks_to_lists_valid (sc : scene) :
  valid_shots sc ->
  tracks_to_lists sc
  = Return (list_repeat 0%nat (numTracks sc), [ls_shot sc]).
Proof.
  intros Hv. unfold tracks_to_lists, list_repeat. simpl.
  rewrite fill_loop_valid; [done |].
  eapply Forall_impl; [exact Hv |]. simpl. intros s Hs. lia.
Qed.

Lemma shot_loop_existsb (start_frame end_frame : Q) (l : list shot) :
  shot_loop start_frame end_frame l
  = negb (existsb (overlaps start_frame end_frame) l).
Proof.
  induction l as [| s l IH]; simpl; [done |].
  by destruct (overlaps start_frame end_frame s).
Qed.

(** Cells that share a busy object are all busy. *)
Lemma track_loop_shared_busy (start_frame end_frame : Q) (h : heap)
    (r : ref) (n : nat) (i : Z) :
  shot_loop start_frame end_frame (deref h r) = false ->
  track_loop start_frame end_frame h i (replicate n r) = None.
Proof.
  intros Hb. revert i. induction n as [| n IH]; intros i; simpl; [done |].
  by rewrite Hb.
Qed.

Lemma track_loop_shared (start_frame end_frame : Q) (h : heap)
    (r : ref) (n : nat) :
  track_loop start_frame end_frame h 0 (replicate (S n) r)
  = if existsb (overlaps start_frame end_frame) (deref h r)
    then None else Some 1.
Proof.
  simpl. rewrite shot_loop_existsb.
  destruct (existsb _ _) eqn:E; simpl; [| done].
  apply track_loop_shared_busy. by rewrite shot_loop_existsb, E.
Qed.

(** C9. Every cell of the list [tracks_to_lists] returns is the same list
    object; for a scene with at least one track whose shots all sit on
    existing tracks the call returns, and that one object, hence every
    bucket, holds all the shots of the scene, in scene order. *)
Theorem tracks_to_lists_buckets_alias (sc : scene) :
  (forall tracks h, tracks_to_lists sc = Return (tracks, h) ->
     exists r, tracks = list_repeat r (numTracks sc))
  /\ (1 <= numTracks sc -> valid_shots sc ->
      exists tracks h,
        tracks_to_lists sc = Return (tracks, h)
        /\ length tracks = Z.to_nat (numTracks sc)
        /\ forall i r, tracks !! i = Some r -> deref h r = ls_shot sc).
Proof.
  split.
  - intros tracks h E.
    destruct (tracks_to_lists_cases sc) as [E' | E']; rewrite E' in E;
      [| discriminate].
    injection E as <- <-. by exists 0%nat.
  - intros _ Hv. eexists _, _. split; [by apply tracks_to_lists_valid |].
    split; [apply length_replicate |].
    intros i r Hi. apply lookup_replicate in Hi as [-> _]. done.
Qed.

Lemma tracks_to_lists_buckets_alias_witness :
  let sc := Scene [Shot "shotA" 2 10 20; Shot "shotB" 1 30 40] 3 in
  1 <= numTracks sc /\ valid_shots sc
  /\ exists tracks h,
       tracks_to_lists sc = Return (tracks, h)
       /\ length tracks = Z.to_nat (numTracks sc)
       /\ forall i r, tracks !! i = Some r -> deref h r = ls_shot sc.
Proof.
  intros sc.
  assert (Hn : 1 <= numTracks sc) by (simpl; lia).
  assert (Hv : valid_shots sc)
    by (unfold valid_shots; simpl; repeat constructor; simpl; lia).
  split; [exact Hn |]. split; [exact Hv |].
  exact (proj2 (tracks_to_lists_buckets_alias sc) Hn Hv).
Defined.

(** C10. With at least one track the call returns [None] or 1 and never a
    higher index (or stops on the [IndexError] of a shot whose track does
    not exist); when the shots all sit on existing tracks it returns, and
    the value is [None] if some shot of the scene overlaps the range and 1
    otherwise. *)
Theorem find_track_none_or_first (sc : scene) (start_frame end_frame : Q) :
  1 <= numTracks sc ->
  (find_track_with_free_range sc start_frame end_frame = Return None
   \/ find_track_with_free_range sc start_frame end_frame = Return (Some 1)
   \/ find_track_with_free_range sc start_frame end_frame = Raise IndexError)
  /\ (valid_shots sc ->
      find_track_with_free_range sc start_frame end_frame
      = Return (if existsb (overlaps start_frame end_frame) (ls_shot sc)
                then None else Some 1)).
Proof.
  intros Hn.
  assert (Hr : list_repeat 0%nat (numTracks sc)
               = replicate (S (Z.to_nat (numTracks sc - 1))) 0%nat).
  { unfold list_repeat. f_equal. lia. }
  assert (Hok : tracks_to_lists sc
                = Return (list_repeat 0%nat (numTracks sc), [ls_shot sc]) ->
                find_track_with_free_range sc start_frame end_frame
                = Return (if existsb (overlaps start_frame end_frame)
                               (ls_shot sc)
                          then None else Some 1)).
  { intros E. unfold find_track_with_free_range. rewrite E. simpl.
    rewrite Hr. by rewrite track_loop_shared. }
  split.
  - destruct (tracks_to_lists_cases sc) as [E | E].
    + rewrite (Hok E). destruct (existsb _ _); auto.
    + right; right. unfold find_track_with_free_range. by rewrite E.
  - intros Hv. apply Hok. by apply tracks_to_lists_valid.
Qed.

Lemma find_track_none_or_first_witness :
  let sc := Scene [Shot "shotA" 2 10 20; Shot "shotB" 1 30 40] 3 in
  1 <= numTracks sc /\ valid_shots sc
  /\ find_track_with_free_range sc 50 60 = Return (Some 1).
Proof.
  intros sc.
  assert (Hn : 1 <= numTracks sc) by (simpl; lia).
  assert (Hv : valid_shots sc)
    by (unfold valid_shots; simpl; repeat constructor; simpl; lia).
  split; [exact Hn |]. split; [exact Hv |].
  exact (proj2 (find_track_none_or_first sc 50 60 Hn) Hv).
Defined.

(** C4. The test holds exactly when the shot's start frame or its end
    frame lies in the closed range.  So, for a range with
    [start_frame <= end_frame], a shot that starts on the range's last
    frame or ends on its first frame overlaps, and a shot that begins
    before the range and ends after it does not. *)
Theorem overlaps_tests_endpoints_only (start_frame end_frame : Q) (s : shot) :
  (overlaps start_frame end_frame s = true <->
     (start_frame <= sequenceStartFrame s
      /\ sequenceStartFrame s <= end_frame)%Q
     \/ (start_frame <= sequenceEndFrame s
         /\ sequenceEndFrame s <= end_frame)%Q)
  /\ ((start_frame <= end_frame)%Q ->
      (sequenceStartFrame s == end_frame)%Q ->
      overlaps start_frame end_frame s = true)
  /\ ((start_frame <= end_frame)%Q ->
      (sequenceEndFrame s == start_frame)%Q ->
      overlaps start_frame end_frame s = true)
  /\ ((sequenceStartFrame s < start_frame)%Q ->
      (end_frame < sequenceEndFrame s)%Q ->
      overlaps start_frame end_frame s = false).
Proof.
  assert (Hiff : overlaps start_frame end_frame s = true <->
     (start_frame <= sequenceStartFrame s
      /\ sequenceStartFrame s <= end_frame)%Q
     \/ (start_frame <= sequenceEndFrame s
         /\ sequenceEndFrame s <= end_frame)%Q).
  { unfold overlaps.
    rewrite orb_true_iff, !andb_true_iff, !Qle_bool_iff. tauto. }
  split; [exact Hiff |]. split; [| split].
  - intros Hr He. apply Hiff. left. split; lra.
  - intros Hr He. apply Hiff. right. split; lra.
  - intros H1 H2. apply not_true_is_false. intros Ho.
    apply Hiff in Ho as [[? ?] | [? ?]]; lra.
Qed.

Lemma overlaps_tests_endpoints_only_witness :
  overlaps 5 15 (Shot "starts_on_last" 1 15 30) = true
  /\ overlaps 5 15 (Shot "ends_on_first" 1 0 5) = true
  /\ overlaps 5 15 (Shot "contains" 1 0 30) = false.
Proof.
  split; [| split].
  - apply (proj1 (proj2 (overlaps_tests_endpoints_only
                           5 15 (Shot "starts_on_last" 1 15 30))));
      simpl; [lra | reflexivity].
  - apply (proj1 (proj2 (proj2 (overlaps_tests_endpoints_only
                                  5 15 (Shot "ends_on_first" 1 0 5)))));
      simpl; [lra | reflexivity].
  - apply (proj2 (proj2 (proj2 (overlaps_tests_endpoints_only
                                  5 15 (Shot "contains" 1 0 30)))));
      simpl; lra.
Defined.

(** C1. Two tracks, one shot on track 1 over frames 10 to 20, range 5 to
    15: track 2 holds no shot, so it is the first track free of
    overlaps, yet the call returns [None]. *)
Theorem find_track_misses_free_track :
  let sc := Scene [Shot "shot1" 1 10 20] 2 in
  valid_shots sc
  /\ existsb (overlaps 5 15) (list_track_shots sc 1) = true
  /\ list_track_shots sc 2 = []
  /\ free_track_documented sc 5 15 = Some 2
  /\ find_track_with_free_range sc 5 15 = Return None.
Proof.
  simpl. split; [| done].
  unfold valid_shots. simpl. repeat constructor; simpl; lia.
Qed.

(** C5. Three tracks, track 2 empty, tracks 1 and 3 each with a shot that
    overlaps the range 5 to 15: the call returns [None], not 2. *)
Theorem find_track_misses_empty_track :
  let sc := Scene [Shot "shot1" 1 10 20; Shot "shot3" 3 0 5] 3 in
  valid_shots sc
  /\ list_track_shots sc 2 = []
  /\ existsb (overlaps 5 15) (list_track_shots sc 1) = true
  /\ existsb (overlaps 5 15) (list_track_shots sc 3) = true
  /\ find_track_with_free_range sc 5 15 = Return None.
Proof.
  simpl. split; [| done].
  unfold valid_shots. simpl. repeat constructor; simpl; lia.
Qed.

End TrackProofs.

(** ** UDIM paths: proofs *)

Section ShadingProofs.

Import Shading.
Local Open Scope string_scope.

Lemma match_here_rep (a : atom) (lo : nat) (hi : option nat) (r : regex)
    (s : string) :
  match_here (Rep a lo hi :: r) s
  = (Nat.eqb lo 0 && match_here r s)
    || match s with
       | String c s' =>
           atom_ok a c && negb (exhausted hi)
           && match_here (Rep a (Nat.pred lo) (option_map Nat.pred hi) :: r) s'
       | EmptyString => false
       end.
Proof. destruct s; reflexivity. Qed.

(** A match of [r1] followed by [r2] starts with a match of [r1]. *)
Lemma match_here_app_l (r1 r2 : regex) (s : string) :
  match_here (r1 ++ r2)%list s = true -> match_here r1 s = true.
Proof.
  revert s. induction r1 as [| [a | a lo hi |] r1 IH]; intros s; [done | | |].
  - destruct s as [| c s]; simpl; [done |].
    rewrite !andb_true_iff. intros [? ?]. auto.
  - revert lo hi. induction s as [| c s IHs]; intros lo hi;
      change ((Rep a lo hi :: r1) ++ r2)%list
        with (Rep a lo hi :: (r1 ++ r2))%list;
      rewrite !(match_here_rep a lo hi);
      rewrite !orb_true_iff, !andb_true_iff.
    + intros [[? ?] | ?]; [left; auto | done].
    + intros [[? ?] | [? ?]]; [left; auto | right].
      split; [done |]. by apply IHs.
  - simpl. rewrite !andb_true_iff. intros [? ?]. auto.
Qed.

Lemma first_match_none (r : regex) (s : string) :
  first_match r s = None -> match_here r s = false.
Proof. destruct s; simpl; by destruct (match_here r _). Qed.

(** A match behind a leading [.*] is a match somewhere in the string. *)
Lemma match_behind_star (r : regex) (s : string) :
  match_here (Rep Dot 0 None :: r) s = true ->
  exists i, first_match r s = Some i.
Proof.
  induction s as [| c s IH]; rewrite match_here_rep; simpl.
  - rewrite orb_false_r. intros ->. by exists 0%nat.
  - destruct (match_here r (String c s)); [by exists 0%nat |].
    simpl. rewrite andb_true_iff. intros [_ H].
    destruct (IH H) as [i ->]. by exists (S i).
Qed.

Lemma first_match_app_l (r1 r2 : regex) (s : string) (i : nat) :
  first_match (r1 ++ r2)%list s = Some i ->
  exists j, first_match r1 s = Some j.
Proof.
  revert i. induction s as [| c s IH]; intros i; simpl;
    destruct (match_here (r1 ++ r2)%list _) eqn:E.
  - apply match_here_app_l in E. rewrite E. by exists 0%nat.
  - done.
  - apply match_here_app_l in E. rewrite E. by exists 0%nat.
  - destruct (match_here r1 (String c s)); [by exists 0%nat |].
    destruct (first_match (r1 ++ r2)%list s) as [k|]; [| done].
    intros _. destruct (IH k eq_refl) as [j ->]. by exists (S j).
Qed.

Lemma uv_token_absent (path : string) :
  first_match UDIM_UV_RE_PATTERN path = None ->
  re_match (any_star ++ UDIM_UV_RE_PATTERN ++ any_star)%list path = false.
Proof.
  intros Hn. apply not_true_is_false. intros Hm.
  apply match_behind_star in Hm as [i Hi].
  apply first_match_app_l in Hi as [j Hj]. congruence.
Qed.

Lemma match_here_lits (p s : string) :
  match_here (lits p) s = true -> String.prefix p s = true.
Proof.
  revert s. induction p as [| c p IH]; intros s; [by destruct s |].
  destruct s as [| d s]; simpl; [done |].
  rewrite andb_true_iff. intros [Hc Hs].
  apply Ascii.eqb_eq in Hc as ->.
  destruct (ascii_dec c c); [by apply IH | done].
Qed.

(** The first test succeeds only on a path that begins with [.1001.]. *)
Lemma extension_test_anchored (path : string) :
  re_match UDIM_EXTENSION_PATTERN path = true ->
  String.prefix ".1001." path = true.
Proof.
  intros H. apply match_here_lits.
  exact (match_here_app_l _ _ _ H).
Qed.

Lemma match_here_any_star (s : string) : match_here any_star s = true.
Proof. unfold any_star. rewrite match_here_rep. reflexivity. Qed.

(** A path that begins with a [_u<digit>_v<digit>] token and does not hold
    the literal token has offset 0. *)
Lemma uv_token_at_start (os : os_name) (d1 d2 : ascii) (rest : string) :
  let path :=
    String "_" (String "u" (String d1
      (String "_" (String "v" (String d2 rest))))) in
  is_digit d1 = true -> is_digit d2 = true ->
  contains UDIM_UV_PATTERN (lower path) = false ->
  path_start_length os path = Return (Some 0%Z).
Proof.
  intros path H1 H2 Hl.
  assert (Hm : match_here UDIM_UV_RE_PATTERN path = true)
    by (simpl; rewrite H1, H2; reflexivity).
  assert (Hm' : match_here (UDIM_UV_RE_PATTERN ++ any_star)%list path = true)
    by (simpl; rewrite H1, H2; apply match_here_any_star).
  unfold path_start_length.
  replace (re_match UDIM_EXTENSION_PATTERN path) with false by reflexivity.
  rewrite Hl. unfold re_match.
  change (any_star ++ UDIM_UV_RE_PATTERN ++ any_star)%list
    with (Rep Dot 0 None :: (UDIM_UV_RE_PATTERN ++ any_star))%list.
  rewrite match_here_rep, Hm'. simpl orb. cbv iota.
  unfold re_split_head.
  replace (first_match UDIM_UV_RE_PATTERN path) with (Some 0%nat);
    [reflexivity |].
  unfold path. unfold first_match. fold path. by rewrite Hm.
Qed.

(** C6. When none of the three tests of lines 177-181 succeeds the call
    returns the empty list and does not look at the directory.  The first
    test may be read as the code runs it (the pattern at position 0) or as
    the pattern occurring anywhere in the path, the third as the code runs
    it or as the token occurring anywhere: in each reading the conclusion
    holds. *)
Theorem no_convention_no_paths (os : os_name) (glob : string -> list string)
    (path : string) :
  re_match UDIM_EXTENSION_PATTERN path = false
    \/ ends_like_udim path = false ->
  contains UDIM_UV_PATTERN (lower path) = false ->
  re_match (any_star ++ UDIM_UV_RE_PATTERN ++ any_star)%list path = false
    \/ first_match UDIM_UV_RE_PATTERN path = None ->
  get_udim_filepaths os glob path = Run [] (Return []).
Proof.
  intros H1 H2 H3.
  assert (E1 : re_match UDIM_EXTENSION_PATTERN path = false).
  { destruct H1 as [H1 | H1]; [done |].
    apply first_match_none. unfold ends_like_udim in H1.
    by destruct (first_match _ _). }
  assert (E3 : re_match (any_star ++ UDIM_UV_RE_PATTERN ++ any_star)%list
                 path = false).
  { destruct H3 as [H3 | H3]; [done | by apply uv_token_absent]. }
  unfold get_udim_filepaths, path_start_length.
  by rewrite E1, H2, E3.
Qed.

Lemma no_convention_no_paths_witness :
  get_udim_filepaths posix (fun _ => ["plain.exr"]) "plain.exr"
  = Run [] (Return []).
Proof.
  apply (no_convention_no_paths posix (fun _ => ["plain.exr"]) "plain.exr").
  - left. reflexivity.
  - reflexivity.
  - left. reflexivity.
Defined.

(** C7. When the offset computed by lines 176-182 is 0 the test of line 183
    fails: the call returns the empty list and hands no pattern to
    [glob.glob], so the result is the same for every directory. *)
Theorem zero_offset_no_glob (os : os_name) (glob : string -> list string)
    (path : string) :
  path_start_length os path = Return (Some 0%Z) ->
  get_udim_filepaths os glob path = Run [] (Return []).
Proof. intros E. unfold get_udim_filepaths. by rewrite E. Qed.

Lemma zero_offset_no_glob_witness :
  path_start_length nt "_u1_v1.exr" = Return (Some 0%Z)
  /\ get_udim_filepaths nt (fun _ => ["_u1_v1.exr"; "_u2_v1.exr"])
       "_u1_v1.exr"
     = Run [] (Return []).
Proof.
  split; [reflexivity |].
  apply (zero_offset_no_glob nt (fun _ => ["_u1_v1.exr"; "_u2_v1.exr"])
           "_u1_v1.exr").
  reflexivity.
Defined.

(** The result depends on the directory only through the answer of
    [glob.glob] to the patterns the call hands to it. *)
Lemma get_udim_filepaths_glob_local (os : os_name)
    (glob1 glob2 : string -> list string) (path : string) :
  (forall pattern, In pattern (globbed (get_udim_filepaths os glob1 path)) ->
     glob1 pattern = glob2 pattern) ->
  get_udim_filepaths os glob1 path = get_udim_filepaths os glob2 path.
Proof.
  unfold get_udim_filepaths.
  destruct (path_start_length os path) as [v | e]; [| done].
  destruct (truthy v); [| done]. simpl.
  intros H. rewrite H; [done | by left].
Qed.

Lemma append_loop_spec (r : nat) (paths : list string) (h : store)
    (l : list string) :
  h !! r = Some l ->
  append_loop r paths h !! r
  = Some (l ++ map (replace "\"%char "/"%char) paths)%list
  /\ forall r', r' <> r -> append_loop r paths h !! r' = h !! r'.
Proof.
  revert h l. induction paths as [| x paths IH]; intros h l Hr; simpl.
  - by rewrite app_nil_r.
  - assert (Hlt : (r < length h)%nat) by (by eapply lookup_lt_Some).
    destruct (IH (list_append h r (replace "\"%char "/"%char x))
                 (l ++ [replace "\"%char "/"%char x])%list) as [H1 H2].
    { unfold list_append, list_of. rewrite Hr. simpl.
      by apply list_lookup_insert_eq. }
    split; [by rewrite H1, <- app_assoc |].
    intros r' Hne. rewrite H2 by done.
    unfold list_append. by apply list_lookup_insert_ne.
Qed.

(** A call returns a new object that holds the paths of
    [get_udim_filepaths], and leaves the objects there were as they were. *)
Lemma get_udim_filepaths_call_spec (os : os_name)
    (glob : string -> list string) (path : string) (h : store) :
  returned (get_udim_filepaths_call os glob path h)
  = outcome (get_udim_filepaths os glob path)
  /\ (forall r l, h !! r = Some l ->
        snd (get_udim_filepaths_call os glob path h) !! r = Some l)
  /\ (forall r, fst (get_udim_filepaths_call os glob path h) = Return r ->
        h !! r = None).
Proof.
  assert (Hnew : (h ++ [[]])%list !! length h = Some ([] : list string))
    by (by apply list_lookup_middle).
  assert (Hold : forall r l, h !! r = Some l ->
            (h ++ [[]])%list !! r = Some l /\ r <> length h).
  { intros r l Hr. split; [by apply lookup_app_l_Some |].
    apply lookup_lt_Some in Hr. lia. }
  assert (Hfresh : h !! length h = None) by (by apply lookup_ge_None).
  unfold get_udim_filepaths_call, get_udim_filepaths, returned, new_list.
  destruct (path_start_length os path) as [v | e]; simpl.
  - destruct (truthy v); simpl.
    + destruct (append_loop_spec (length h)
                  (glob (slice_to path (default 0%Z v) ++ "*"
                         ++ extension_of os path))
                  (h ++ [[]])%list [] Hnew) as [H1 H2].
      split; [unfold list_of; by rewrite H1 |].
      split; [| by intros r [= <-]].
      intros r l Hr. destruct (Hold r l Hr) as [Hr' Hne].
      by rewrite H2.
    + split; [unfold list_of; by rewrite Hnew |].
      split; [| by intros r [= <-]].
      intros r l Hr. by destruct (Hold r l Hr).
  - split; [done |]. split; [| done].
    intros r l Hr. by destruct (Hold r l Hr).
Qed.

(** C8. Two calls on the same path, against [glob.glob] answers that
    agree, end the same way, on the same exception or on lists that hold
    the same paths, from whatever store of objects each call starts.  The
    list a call returns holds the paths computed from the path and the
    [glob.glob] answers and nothing else; it is an object that did not
    exist before the call, and the call changes no list that did: what an
    earlier call returned, and what the caller did to it since, has no
    part in a later call. *)
Theorem get_udim_filepaths_rerun (os : os_name)
    (glob1 glob2 : string -> list string) (path : string) (h1 h2 : store) :
  (forall pattern, glob1 pattern = glob2 pattern) ->
  returned (get_udim_filepaths_call os glob1 path h1)
  = returned (get_udim_filepaths_call os glob2 path h2)
  /\ returned (get_udim_filepaths_call os glob2 path h2)
     = outcome (get_udim_filepaths os glob2 path)
  /\ (forall r l, h2 !! r = Some l ->
        snd (get_udim_filepaths_call os glob2 path h2) !! r = Some l)
  /\ (forall r, fst (get_udim_filepaths_call os glob2 path h2) = Return r ->
        h2 !! r = None).
Proof.
  intros Hg.
  destruct (get_udim_filepaths_call_spec os glob1 path h1) as (E1 & _ & _).
  destruct (get_udim_filepaths_call_spec os glob2 path h2) as (E2 & Ho & Hf).
  split; [| by split].
  rewrite E1, E2. f_equal.
  apply get_udim_filepaths_glob_local. auto.
Qed.

Lemma get_udim_filepaths_rerun_witness :
  let glob1 := fun _ : string =>
    ["d/tex_u1_v1.exr"; "d\tex_u1_v2.exr"] in
  let glob2 := fun pattern : string =>
    if String.eqb pattern pattern
    then ["d/tex_u1_v1.exr"; "d\tex_u1_v2.exr"]
    else [] in
  let first := get_udim_filepaths_call posix glob1 "d/tex_u1_v1.exr" [] in
  let h2 := list_append (snd first) 0 "appended by the caller" in
  (forall pattern, glob1 pattern = glob2 pattern)
  /\ returned first
     = returned (get_udim_filepaths_call posix glob2 "d/tex_u1_v1.exr" h2)
  /\ returned first = Return ["d/tex_u1_v1.exr"; "d/tex_u1_v2.exr"]
  /\ list_of h2 0
     = ["d/tex_u1_v1.exr"; "d/tex_u1_v2.exr"; "appended by the caller"].
Proof.
  intros glob1 glob2 first h2.
  assert (Hg : forall pattern, glob1 pattern = glob2 pattern).
  { intros pattern. unfold glob1, glob2. by rewrite String.eqb_refl. }
  split; [exact Hg |].
  split; [| split; reflexivity].
  exact (proj1 (get_udim_filepaths_rerun posix glob1 glob2
                  "d/tex_u1_v1.exr" [] h2 Hg)).
Defined.

(** C2. ["tex.1001.exr"] ends in [.1001.exr], but the first test looks for
    the pattern at position 0 of the path and fails; no other test
    succeeds, and the call returns the empty list without a glob, also
    when [tex.1001.exr] and [tex.1002.exr] are both there to be found. *)
Theorem udim_suffix_not_recognised (os : os_name) :
  let glob := fun pattern : string =>
    if String.eqb pattern "tex.*.exr"
    then ["tex.1001.exr"; "tex.1002.exr"] else [] in
  ends_like_udim "tex.1001.exr" = true
  /\ re_match UDIM_EXTENSION_PATTERN "tex.1001.exr" = false
  /\ get_udim_filepaths os glob "tex.1001.exr" = Run [] (Return []).
Proof. destruct os; done. Qed.

(** C3. [".1001.EXR"] passes the first test; the extension keeps its case
    while the path it is searched in is lowered, so [index] does not find
    it and the call ends on [ValueError]. *)
Theorem upper_case_extension_raises (os : os_name)
    (glob : string -> list string) :
  re_match UDIM_EXTENSION_PATTERN ".1001.EXR" = true
  /\ extension_of os ".1001.EXR" = ".EXR"
  /\ get_udim_filepaths os glob ".1001.EXR" = Run [] (Raise ValueError).
Proof. destruct os; done. Qed.

End ShadingProofs.

(** ** Sequencer tracks: further properties *)

Section TrackExtras.

Import Track.

Lemma getitem_replicate_out {A : Type} (x : A) (n : nat) (i : Z) :
  i < - Z.of_nat n \/ Z.of_nat n <= i ->
  getitem (replicate n x) i = Raise IndexError.
Proof.
  intros Hi. unfold getitem. rewrite length_replicate.
  set (j := if i <? 0 then i + Z.of_nat n else i).
  assert (Hj : j < 0 \/ Z.of_nat n <= j)
    by (unfold j; destruct (Z.ltb_spec i 0); lia).
  replace ((0 <=? j) && (j <? Z.of_nat n)) with false; [done |].
  symmetry. apply andb_false_iff.
  destruct Hj; [left; by apply Z.leb_gt | right; by apply Z.ltb_ge].
Qed.

Lemma fill_loop_in_range (n : nat) (shots l : list shot) :
  Forall (fun s => 1 - Z.of_nat n <= track s <= Z.of_nat n) shots ->
  fill_loop (replicate n 0%nat) shots [l] = Return [l ++ shots].
Proof.
  revert l. induction shots as [| s shots IH]; intros l Hv; simpl.
  - by rewrite app_nil_r.
  - inversion Hv as [| ? ? Hs Hv']; subst.
    rewrite getitem_replicate by lia.
    simpl. unfold append, deref. simpl.
    rewrite IH by done. by rewrite <- app_assoc.
Qed.

Lemma fill_loop_out_of_range (n : nat) (shots l : list shot) :
  Exists (fun s => track s < 1 - Z.of_nat n \/ Z.of_nat n < track s) shots ->
  fill_loop (replicate n 0%nat) shots [l] = Raise IndexError.
Proof.
  revert l. induction shots as [| s shots IH]; intros l Hv; simpl.
  - inversion Hv.
  - destruct (decide (1 - Z.of_nat n <= track s <= Z.of_nat n)) as [Hs | Hs].
    + rewrite getitem_replicate by lia.
      simpl. unfold append, deref. simpl.
      apply IH. inversion Hv; subst; [lia | done].
    + rewrite getitem_replicate_out by lia. done.
Qed.

(** X1. [tracks_to_lists] raises [IndexError] exactly when some shot sits on
    a track above the track count or below one minus the track count (a
    track of 0 or a small negative one counts from the end of the list and
    is accepted); it returns in every other case.  With no track every
    shot makes it raise. *)
Theorem tracks_to_lists_index_error (sc : scene) :
  let n := Z.max 0 (numTracks sc) in
  (tracks_to_lists sc = Raise IndexError <->
     Exists (fun s => track s < 1 - n \/ n < track s) (ls_shot sc))
  /\ ((exists v, tracks_to_lists sc = Return v) <->
      Forall (fun s => 1 - n <= track s <= n) (ls_shot sc)).
Proof.
  intros n.
  assert (Hn : Z.of_nat (Z.to_nat (numTracks sc)) = n) by (unfold n; lia).
  assert (Hok : Forall (fun s => 1 - n <= track s <= n) (ls_shot sc) ->
                tracks_to_lists sc
                = Return (list_repeat 0%nat (numTracks sc), [ls_shot sc])).
  { intros Hv. unfold tracks_to_lists, list_repeat. simpl.
    rewrite fill_loop_in_range; [done |]. by rewrite Hn. }
  assert (Hko : Exists (fun s => track s < 1 - n \/ n < track s) (ls_shot sc) ->
                tracks_to_lists sc = Raise IndexError).
  { intros Hv. unfold tracks_to_lists, list_repeat. simpl.
    rewrite fill_loop_out_of_range; [done |]. by rewrite Hn. }
  assert (Hdec : Forall (fun s => 1 - n <= track s <= n) (ls_shot sc)
                 \/ Exists (fun s => track s < 1 - n \/ n < track s)
                      (ls_shot sc)).
  { destruct (decide (Forall (fun s => 1 - n <= track s <= n) (ls_shot sc)))
      as [Hv | Hv]; [by left | right].
    apply not_Forall_Exists in Hv; [| apply _].
    eapply Exists_impl; [exact Hv |]. simpl. intros; lia. }
  split; split.
  - intros E. destruct Hdec as [Hv | Hv]; [| done].
    rewrite (Hok Hv) in E. discriminate.
  - exact Hko.
  - intros [v E]. destruct Hdec as [Hv | Hv]; [done |].
    rewrite (Hko Hv) in E. discriminate.
  - intros Hv. eexists. by apply Hok.
Qed.

Lemma find_track_returned (sc : scene) (start_frame end_frame : Q) :
  tracks_to_lists sc
  = Return (list_repeat 0%nat (numTracks sc), [ls_shot sc]) ->
  find_track_with_free_range sc start_frame end_frame
  = Return (if numTracks sc <=? 0 then None
            else if existsb (overlaps start_frame end_frame) (ls_shot sc)
                 then None else Some 1).
Proof.
  intros E. unfold find_track_with_free_range. rewrite E. simpl.
  destruct (Z.leb_spec (numTracks sc) 0) as [Hn | Hn].
  - unfold list_repeat. by replace (Z.to_nat (numTracks sc)) with 0%nat by lia.
  - unfold list_repeat.
    replace (Z.to_nat (numTracks sc))
      with (S (Z.to_nat (numTracks sc - 1))) by lia.
    by rewrite track_loop_shared.
Qed.

(** X2. Without any track the search returns [None] when the scene holds no
    shot and stops on [IndexError] as soon as it holds one. *)
Theorem find_track_without_tracks (sc : scene) (start_frame end_frame : Q) :
  numTracks sc <= 0 ->
  find_track_with_free_range sc start_frame end_frame
  = match ls_shot sc with
    | [] => Return None
    | _ :: _ => Raise IndexError
    end.
Proof.
  intros Hn. unfold find_track_with_free_range, tracks_to_lists, list_repeat.
  replace (Z.to_nat (numTracks sc)) with 0%nat by lia.
  destruct (ls_shot sc) as [| s l]; [done |].
  simpl. by rewrite (getitem_replicate_out 0%nat 0) by (simpl; lia).
Qed.

Lemma find_track_without_tracks_witness :
  find_track_with_free_range (Scene [Shot "shot1" 1 10 20] 0) 30 40
  = Raise IndexError.
Proof.
  apply (find_track_without_tracks (Scene [Shot "shot1" 1 10 20] 0) 30 40).
  simpl. lia.
Defined.

Lemma overlaps_subrange (s e s' e' : Q) (x : shot) :
  (s <= s')%Q -> (e' <= e)%Q ->
  overlaps s' e' x = true -> overlaps s e x = true.
Proof.
  unfold overlaps.
  rewrite !orb_true_iff, !andb_true_iff, !Qle_bool_iff.
  intros H1 H2 [[? ?] | [? ?]]; [left | right]; split; lra.
Qed.

(** X3. A range found free stays free when it is narrowed: if the search
    returns 1 for a range, it returns 1 for every range inside it. *)
Theorem free_range_narrows (sc : scene) (s e s' e' : Q) :
  (s <= s')%Q -> (e' <= e)%Q ->
  find_track_with_free_range sc s e = Return (Some 1) ->
  find_track_with_free_range sc s' e' = Return (Some 1).
Proof.
  intros H1 H2 E.
  destruct (tracks_to_lists_cases sc) as [Ht | Ht].
  - rewrite (find_track_returned sc s e Ht) in E.
    rewrite (find_track_returned sc s' e' Ht).
    destruct (numTracks sc <=? 0); [done |].
    destruct (existsb (overlaps s e) (ls_shot sc)) eqn:Ex; [done |].
    destruct (existsb (overlaps s' e') (ls_shot sc)) eqn:Ex'; [| done].
    apply existsb_exists in Ex' as [x [Hx Ho]].
    assert (existsb (overlaps s e) (ls_shot sc) = true); [| congruence].
    apply existsb_exists. exists x. split; [done |].
    by apply (overlaps_subrange s e s' e').
  - unfold find_track_with_free_range in E. rewrite Ht in E. discriminate.
Qed.

Lemma free_range_narrows_witness :
  find_track_with_free_range
    (Scene [Shot "shotA" 1 10 20; Shot "shotB" 2 50 60] 2) 25 35
  = Return (Some 1).
Proof.
  apply (free_range_narrows
           (Scene [Shot "shotA" 1 10 20; Shot "shotB" 2 50 60] 2)
           21 49 25 35).
  - lra.
  - lra.
  - reflexivity.
Defined.

Lemma tracks_to_lists_index_error_witness :
  tracks_to_lists (Scene [Shot "shotA" 0 10 20; Shot "shotB" 3 30 40] 2)
  = Raise IndexError.
Proof.
  apply (proj2 (proj1 (tracks_to_lists_index_error
                         (Scene [Shot "shotA" 0 10 20; Shot "shotB" 3 30 40]
                                2)))).
  apply Exists_cons_tl, Exists_cons_hd. simpl. lia.
Defined.

Lemma flat_map_filter_other (x : shot) (l : list shot) (ks : list Z) :
  track x ∉ ks ->
  flat_map (fun k => List.filter (fun s => track s =? k) (x :: l)) ks
  = flat_map (fun k => List.filter (fun s => track s =? k) l) ks.
Proof.
  induction ks as [| k ks IH]; intros Hx; [done |].
  apply not_elem_of_cons in Hx as [Hk Hks].
  cbn [flat_map]. rewrite IH by done. cbn [List.filter].
  by destruct (Z.eqb_spec (track x) k).
Qed.

Lemma flat_map_filter_partition (l : list shot) (ks : list Z) :
  NoDup ks ->
  Forall (fun s => track s ∈ ks) l ->
  flat_map (fun k => List.filter (fun s => track s =? k) l) ks ≡ₚ l.
Proof.
  intros Hnd. induction l as [| x l IH]; intros Hl.
  - clear. induction ks as [| k ks IHk]; simpl; [done | exact IHk].
  - inversion Hl as [| ? ? Hx Hl']; subst.
    apply list_elem_of_split in Hx as (k1 & k2 & ->).
    apply NoDup_app in Hnd as Hnd'. destruct Hnd' as (_ & H1 & H2).
    apply NoDup_cons in H2 as [H2 _].
    assert (Hk1 : track x ∉ k1).
    { intros Hin. apply (H1 _ Hin). by left. }
    assert (Hk2 : track x ∉ k2) by done.
    assert (Hc : forall (f : Z -> list shot) a ks,
               flat_map f (a :: ks) = f a ++ flat_map f ks) by done.
    specialize (IH Hl'). rewrite flat_map_app, Hc in IH |- *.
    rewrite !flat_map_filter_other by done.
    cbn [List.filter]. rewrite Z.eqb_refl.
    rewrite <- app_comm_cons, <- Permutation_middle. by constructor.
Qed.

(** X4. Taken over the tracks 1 to [numTracks], [list_track_shots] lists
    every shot of a scene whose shots sit on existing tracks exactly once:
    the per-track lists, put end to end, are a rearrangement of the shots
    of the scene. *)
Theorem list_track_shots_partition (sc : scene) :
  valid_shots sc ->
  flat_map (list_track_shots sc) (range_up (numTracks sc)) ≡ₚ ls_shot sc.
Proof.
  intros Hv. unfold list_track_shots, range_up.
  apply flat_map_filter_partition; [apply NoDup_seqZ |].
  eapply Forall_impl; [exact Hv |]. simpl. intros s Hs.
  apply elem_of_seqZ. lia.
Qed.

Lemma list_track_shots_partition_witness :
  let sc := Scene [Shot "shotA" 2 10 20; Shot "shotB" 1 30 40;
                   Shot "shotC" 2 50 60] 3 in
  flat_map (list_track_shots sc) (range_up (numTracks sc)) ≡ₚ ls_shot sc.
Proof.
  intros sc. apply (list_track_shots_partition sc).
  unfold valid_shots. simpl. repeat constructor; simpl; lia.
Defined.

Lemma range_down_succ (k : nat) :
  range_down (Z.of_nat (S k)) = Z.of_nat (S k) :: range_down (Z.of_nat k).
Proof.
  unfold range_down. rewrite seqZ_S, reverse_app. simpl.
  f_equal. f_equal. lia.
Qed.

Lemma range_down_nonpos (n : Z) : n <= 0 -> range_down n = [].
Proof. intros Hn. unfold range_down. by rewrite seqZ_nil. Qed.

Lemma find_track_index_loop_some (title : Z -> string) (t : string)
    (k : nat) (i : Z) :
  find_track_index_loop title t (range_down (Z.of_nat k)) = Some i <->
  1 <= i <= Z.of_nat k /\ title i = t
  /\ forall j, i < j <= Z.of_nat k -> title j <> t.
Proof.
  induction k as [| k IH].
  - rewrite range_down_nonpos by done. simpl. split; [done | lia].
  - rewrite range_down_succ. simpl.
    destruct (String.eqb_spec (title (Z.of_nat (S k))) t) as [Ht | Ht].
    + split.
      * intros [= <-]. split; [lia |]. split; [done |]. lia.
      * intros (Hi & Hti & Hj). f_equal.
        destruct (decide (i = Z.of_nat (S k))) as [-> | Hne]; [done |].
        exfalso. apply (Hj (Z.of_nat (S k))); [lia | done].
    + rewrite IH. split.
      * intros (Hi & Hti & Hj). split; [lia |]. split; [done |].
        intros j Hij.
        destruct (decide (j = Z.of_nat (S k))) as [-> | Hne]; [done |].
        apply Hj. lia.
      * intros (Hi & Hti & Hj).
        assert (i <> Z.of_nat (S k)) by (intros ->; done).
        split; [lia |]. split; [done |]. intros j Hij. apply Hj. lia.
Qed.

Lemma find_track_index_loop_none (title : Z -> string) (t : string)
    (l : list Z) :
  find_track_index_loop title t l = None <->
  Forall (fun j => title j <> t) l.
Proof.
  induction l as [| k l IH]; simpl; [by split |].
  destruct (String.eqb_spec (title k) t) as [Ht | Ht].
  - split; [done |]. intros Hf. inversion Hf; subst. done.
  - rewrite IH. split; [by constructor |].
    intros Hf. by inversion Hf.
Qed.

Lemma find_track_index_some (sc : scene) (title : Z -> string)
    (track_title : string) (i : Z) :
  find_track_index sc title track_title = Some i <->
  1 <= i <= numTracks sc /\ title i = track_title
  /\ forall j, i < j <= numTracks sc -> title j <> track_title.
Proof.
  unfold find_track_index.
  destruct (Z.le_gt_cases (numTracks sc) 0) as [Hn | Hn].
  - rewrite range_down_nonpos by done. simpl. split; [done | lia].
  - rewrite <- (Z2Nat.id (numTracks sc)) by lia.
    apply find_track_index_loop_some.
Qed.

(** X5. [find_track_index] returns the highest track that carries the
    title, not the lowest: index [i] is returned exactly when track [i]
    exists and has the title and no track above it has; [None] is returned
    exactly when no track has the title. *)
Theorem find_track_index_highest (sc : scene) (title : Z -> string)
    (track_title : string) :
  (forall i, find_track_index sc title track_title = Some i <->
     1 <= i <= numTracks sc /\ title i = track_title
     /\ forall j, i < j <= numTracks sc -> title j <> track_title)
  /\ (find_track_index sc title track_title = None <->
      forall j, 1 <= j <= numTracks sc -> title j <> track_title).
Proof.
  split; [intros i; apply find_track_index_some |].
  unfold find_track_index. rewrite find_track_index_loop_none.
  rewrite Forall_forall. unfold range_down.
  setoid_rewrite elem_of_reverse. setoid_rewrite elem_of_seqZ.
  split; intros H j Hj; apply H; lia.
Qed.

Lemma find_track_index_highest_witness :
  find_track_index (Scene [] 3)
    (fun i => if i =? 1 then "layout"%string else "anim"%string) "layout"%string
  = Some 1.
Proof.
  apply (proj1 (find_track_index_highest (Scene [] 3)
                  (fun i => if i =? 1 then "layout"%string else "anim"%string)
                  "layout"%string)).
  simpl. split; [lia |]. split; [reflexivity |].
  intros j Hj. destruct (Z.eqb_spec j 1); [lia | discriminate].
Defined.

(** X6. The index [find_track_index] returns addresses the title asked for
    in the list of [list_track_titles], which holds one title per track. *)
Theorem find_track_index_in_titles (sc : scene) (title : Z -> string)
    (track_title : string) (i : Z) :
  find_track_index sc title track_title = Some i ->
  length (list_track_titles sc title) = Z.to_nat (numTracks sc)
  /\ getitem (list_track_titles sc title) (i - 1) = Return track_title.
Proof.
  intros E.
  apply find_track_index_some in E as (Hi & Ht & _).
  unfold list_track_titles, range_up.
  assert (Hlen : length (map title (seqZ 1 (numTracks sc)))
                 = Z.to_nat (numTracks sc))
    by (by rewrite length_map, length_seqZ).
  split; [exact Hlen |].
  unfold getitem. rewrite Hlen.
  destruct (Z.ltb_spec (i - 1) 0); [lia |].
  destruct (Z.leb_spec 0 (i - 1)); [| lia].
  destruct (Z.ltb_spec (i - 1) (Z.of_nat (Z.to_nat (numTracks sc)))); [| lia].
  simpl.
  change (map title (seqZ 1 (numTracks sc)))
    with (title <$> seqZ 1 (numTracks sc)).
  rewrite list_lookup_fmap, lookup_seqZ_lt by lia. simpl.
  f_equal. rewrite <- Ht. f_equal. lia.
Qed.

Lemma find_track_index_in_titles_witness :
  getitem
    (list_track_titles (Scene [] 3)
       (fun i => if i =? 1 then "layout"%string else "anim"%string)) (3 - 1)
  = Return "anim"%string.
Proof.
  apply (find_track_index_in_titles (Scene [] 3)
           (fun i => if i =? 1 then "layout"%string else "anim"%string)
           "anim"%string 3).
  reflexivity.
Defined.

Lemma remove_unused_loop_elem (used l : list Z) (i : Z) :
  i ∈ remove_unused_loop used l <-> i ∈ l /\ i ∉ used.
Proof.
  induction l as [| k l IH]; simpl.
  - rewrite !elem_of_nil. tauto.
  - case_bool_decide as Hk.
    + rewrite IH, elem_of_cons. split; [tauto |].
      intros [[-> | ?] ?]; tauto.
    + rewrite !elem_of_cons, IH. split; [| tauto].
      intros [-> | ?]; tauto.
Qed.

Lemma remove_unused_loop_sorted (used l : list Z) :
  StronglySorted Z.gt l -> StronglySorted Z.gt (remove_unused_loop used l).
Proof.
  induction 1 as [| k l Hs IH Hk]; simpl; [constructor |].
  case_bool_decide; [done |]. constructor; [done |].
  apply Forall_forall. intros j Hj.
  apply remove_unused_loop_elem in Hj as [Hj _].
  rewrite Forall_forall in Hk. by apply Hk.
Qed.

Lemma range_down_sorted (n : Z) : StronglySorted Z.gt (range_down n).
Proof.
  destruct (Z.le_gt_cases n 0) as [Hn | Hn].
  - rewrite range_down_nonpos by done. constructor.
  - rewrite <- (Z2Nat.id n) by lia.
    induction (Z.to_nat n) as [| k IH].
    + rewrite range_down_nonpos by done. constructor.
    + rewrite range_down_succ. constructor; [done |].
      apply Forall_forall. intros j Hj.
      unfold range_down in Hj. rewrite elem_of_reverse, elem_of_seqZ in Hj.
      lia.
Qed.

(** X7. [remove_unused_sequencer_tracks] asks Maya to remove exactly the
    tracks between 1 and [numTracks] that no shot sits on, never a track
    that holds a shot, each once and from the highest index down. *)
Theorem remove_unused_sequencer_tracks_exact (sc : scene) :
  (forall i, i ∈ remove_unused_sequencer_tracks sc <->
     1 <= i <= numTracks sc /\ list_shots_on_sequencer_track sc i = [])
  /\ StronglySorted Z.gt (remove_unused_sequencer_tracks sc).
Proof.
  split.
  - intros i. unfold remove_unused_sequencer_tracks.
    rewrite remove_unused_loop_elem.
    unfold range_down, list_used_sequencer_track_indexes.
    rewrite elem_of_reverse, elem_of_seqZ, elem_of_elements,
      elem_of_list_to_set.
    assert (Hi : list_shots_on_sequencer_track sc i = []
                 <-> i ∉ map track (ls_shot sc)).
    { unfold list_shots_on_sequencer_track.
      change (map track (ls_shot sc)) with (track <$> ls_shot sc).
      rewrite list_elem_of_fmap.
      induction (ls_shot sc) as [| s l IH]; simpl.
      - split; [| done]. intros _ (y & _ & Hy). by apply elem_of_nil in Hy.
      - destruct (Z.eqb_spec (track s) i) as [He | He].
        + split; [done |]. intros Hn. exfalso. apply Hn.
          exists s. split; [done | by left].
        + rewrite IH. split.
          * intros Hn (y & Hy & Hin). apply elem_of_cons in Hin as [-> | Hin];
              [by apply He | apply Hn; eauto].
          * intros Hn (y & Hy & Hin). apply Hn. exists y.
            split; [done | by right]. }
    rewrite Hi. split; intros [? ?]; split; (lia || done).
  - apply remove_unused_loop_sorted, range_down_sorted.
Qed.

Lemma remove_unused_sequencer_tracks_exact_witness :
  let sc := Scene [Shot "shotA" 2 10 20; Shot "shotB" 2 30 40;
                   Shot "shotC" 5 50 60] 6 in
  4 ∈ remove_unused_sequencer_tracks sc.
Proof.
  intros sc.
  apply (proj2 (proj1 (remove_unused_sequencer_tracks_exact sc) 4)).
  split; [simpl; lia | reflexivity].
Defined.

End TrackExtras.

(** ** Texture paths: further properties *)

Section ShadingExtras.

Import Shading.
Local Open Scope string_scope.

(** The offset is computed without an exception unless the first test
    succeeded: after a successful [in] test [index] finds the token. *)
Lemma path_start_length_raises (os : os_name) (path : string) (e : exn) :
  path_start_length os path = Raise e ->
  e = ValueError /\ re_match UDIM_EXTENSION_PATTERN path = true.
Proof.
  unfold path_start_length.
  destruct (re_match UDIM_EXTENSION_PATTERN path).
  { unfold index. destruct (find _ (lower path)); simpl; [done |].
    by intros [= <-]. }
  destruct (contains UDIM_UV_PATTERN (lower path)) eqn:Ec.
  { unfold index. unfold contains in Ec.
    destruct (find UDIM_UV_PATTERN (lower path)); [by simpl | done]. }
  by destruct (re_match _ path).
Qed.

Lemma path_start_length_nonneg (os : os_name) (path : string) (k : Z) :
  path_start_length os path = Return (Some k) -> (0 <= k)%Z.
Proof.
  unfold path_start_length.
  destruct (re_match UDIM_EXTENSION_PATTERN path).
  { unfold index. destruct (find _ (lower path)); simpl; [| done].
    intros [= <-]. lia. }
  destruct (contains UDIM_UV_PATTERN (lower path)).
  { unfold index. destruct (find UDIM_UV_PATTERN (lower path)); simpl;
      [| done].
    intros [= <-]. lia. }
  destruct (re_match _ path); [| done]. intros [= <-]. lia.
Qed.

(** X8. A call hands at most one pattern to [glob.glob].  Up to there it
    raises nothing but the [ValueError] of the first branch: when the
    first test fails the offset is computed without an exception.  When no
    pattern is handed over, the call returns the empty list or ends on
    that [ValueError]; when one is, it is [path[:k]], then [*], then the
    extension of the path, for the offset [k] computed, which is above
    0. *)
Theorem get_udim_filepaths_one_glob (os : os_name)
    (glob : string -> list string) (path : string) :
  (re_match UDIM_EXTENSION_PATTERN path = false ->
   exists v, path_start_length os path = Return v)
  /\ ((globbed (get_udim_filepaths os glob path) = []
       /\ (outcome (get_udim_filepaths os glob path) = Return []
           \/ (outcome (get_udim_filepaths os glob path) = Raise ValueError
               /\ re_match UDIM_EXTENSION_PATTERN path = true)))
      \/ exists k, (0 < k)%Z
           /\ path_start_length os path = Return (Some k)
           /\ globbed (get_udim_filepaths os glob path)
              = [slice_to path k ++ "*" ++ extension_of os path]).
Proof.
  split.
  - intros Hm. destruct (path_start_length os path) as [v | e] eqn:E;
      [by exists v |].
    apply path_start_length_raises in E as [_ E]. congruence.
  - unfold get_udim_filepaths.
    destruct (path_start_length os path) as [[k |] | e] eqn:E; simpl.
    + destruct (Z.eqb_spec k 0) as [-> | Hk]; simpl; [left; auto |].
      right. exists k. apply path_start_length_nonneg in E as Hk'.
      split; [lia | done].
    + left. auto.
    + left. apply path_start_length_raises in E as [-> Hm]. auto.
Qed.

Lemma get_udim_filepaths_one_glob_witness :
  (exists v, path_start_length posix "maps/wood_u1_v1.exr" = Return v)
  /\ globbed (get_udim_filepaths posix (fun _ => []) "maps/wood_u1_v1.exr")
     = ["maps/wood*.exr"].
Proof.
  split.
  - apply (proj1 (get_udim_filepaths_one_glob posix (fun _ => [])
                    "maps/wood_u1_v1.exr")).
    reflexivity.
  - reflexivity.
Defined.

Lemma replace_removes (a b : ascii) (s : string) :
  a <> b -> find (String a "") (replace a b s) = None.
Proof.
  intros Hab. induction s as [| c s IH]; simpl; [done |].
  rewrite IH. simpl.
  destruct (ascii_dec a (if Ascii.eqb c a then b else c)) as [E | E];
    [| done].
  exfalso. destruct (Ascii.eqb_spec c a); congruence.
Qed.

(** X9. No path the call returns holds a backslash, whatever [glob.glob]
    answers. *)
Theorem get_udim_filepaths_forward_slashes (os : os_name)
    (glob : string -> list string) (path : string) (udim_paths : list string) :
  outcome (get_udim_filepaths os glob path) = Return udim_paths ->
  Forall (fun p => contains "\" p = false) udim_paths.
Proof.
  unfold get_udim_filepaths.
  destruct (path_start_length os path) as [v | e]; [| done].
  destruct (truthy v); simpl; intros [= <-]; [| constructor].
  apply Forall_forall. intros p Hp.
  apply list_elem_of_fmap in Hp as (q & -> & _).
  unfold contains. by rewrite replace_removes.
Qed.

Lemma get_udim_filepaths_forward_slashes_witness :
  Forall (fun p => contains "\" p = false)
    ["C:/tex/wood_u1_v1.exr"; "C:/tex/wood_u2_v1.exr"].
Proof.
  apply (get_udim_filepaths_forward_slashes nt
           (fun _ => ["C:\tex\wood_u1_v1.exr"; "C:\tex\wood_u2_v1.exr"])
           "C:\tex\wood_u1_v1.exr").
  reflexivity.
Defined.

Lemma is_upper_lower_char (c : ascii) : is_upper (lower_char c) = false.
Proof. destruct c as [[] [] [] [] [] [] [] []]; reflexivity. Qed.

Lemma prefix_chars (sub s : string) (c : ascii) :
  String.prefix sub s = true ->
  In c (list_ascii_of_string sub) -> In c (list_ascii_of_string s).
Proof.
  revert s. induction sub as [| d sub IH]; intros s; [done |].
  destruct s as [| d' s]; simpl; [done |].
  destruct (ascii_dec d d') as [<- | ?]; [| done].
  intros Hp [-> | Hc]; [by left | right; by apply IH].
Qed.

Lemma lower_has_no_upper (s : string) (c : ascii) :
  In c (list_ascii_of_string (lower s)) -> is_upper c = false.
Proof.
  induction s as [| d s IH]; simpl; [done |].
  intros [<- | Hc]; [apply is_upper_lower_char | by apply IH].
Qed.

(** A string with an upper-case letter is not found in a lowered string. *)
Lemma find_upper_in_lower (sub s : string) (c : ascii) :
  In c (list_ascii_of_string sub) -> is_upper c = true ->
  find sub (lower s) = None.
Proof.
  intros Hc Hu.
  assert (Hp : forall t, String.prefix sub (lower t) = false).
  { intros t. apply not_true_is_false. intros Hp.
    pose proof (lower_has_no_upper t c (prefix_chars _ _ c Hp Hc)).
    congruence. }
  induction s as [| d s IH].
  - pose proof (Hp "") as H0. change (lower "") with "" in H0 |- *.
    cbn [find]. by rewrite H0.
  - change (lower (String d s)) with (String (lower_char d) (lower s)).
    cbn [find].
    change (String (lower_char d) (lower s)) with (lower (String d s)).
    by rewrite Hp, IH.
Qed.

Lemma chars_app (s1 s2 : string) (c : ascii) :
  In c (list_ascii_of_string s2) -> In c (list_ascii_of_string (s1 ++ s2)).
Proof. induction s1 as [| d s1 IH]; simpl; [done | by right; apply IH]. Qed.

(** X10. Whenever the first test succeeds on a path whose extension holds an
    upper-case letter, the call ends on [ValueError], without a glob. *)
Theorem upper_case_extension_value_error (os : os_name)
    (glob : string -> list string) (path : string) (c : ascii) :
  re_match UDIM_EXTENSION_PATTERN path = true ->
  In c (list_ascii_of_string (extension_of os path)) ->
  is_upper c = true ->
  get_udim_filepaths os glob path = Run [] (Raise ValueError).
Proof.
  intros Hm Hc Hu. unfold get_udim_filepaths, path_start_length.
  rewrite Hm. unfold index.
  rewrite (find_upper_in_lower _ path c); [done | | done].
  by apply chars_app.
Qed.

Lemma upper_case_extension_value_error_witness :
  get_udim_filepaths nt (fun _ => [".1001.Tif"]) ".1001.Tif"
  = Run [] (Raise ValueError).
Proof.
  apply (upper_case_extension_value_error nt (fun _ => [".1001.Tif"])
           ".1001.Tif" "T"%char).
  - reflexivity.
  - simpl. tauto.
  - reflexivity.
Defined.


Lemma contains_dot (node a : string) : contains "." (node ++ "." ++ a) = true.
Proof.
  unfold contains. induction node as [| c node IH];
    [by destruct a |].
  change (String c node ++ "." ++ a) with (String c (node ++ "." ++ a)).
  cbn [find].
  destruct (String.prefix "." (String c (node ++ "." ++ a))); [done |].
  by destruct (find "." (node ++ "." ++ a)).
Qed.

Lemma texture_attributes_loop_spec (listAttr : string -> option (list string))
    (history acc : list string) :
  texture_attributes_loop listAttr history acc
  = (acc ++ flat_map (fun node => map (fun a => (node ++ "." ++ a)%string)
                                    (default [] (listAttr node))) history)%list.
Proof.
  revert acc. induction history as [| node history IH]; intros acc; simpl.
  - by rewrite app_nil_r.
  - by rewrite IH, <- app_assoc.
Qed.

(** X11. [list_texture_attributes] lists, node after node in the order of
    the history, each file-name attribute as [node.attribute]; a node for
    which Maya lists nothing adds nothing; every name listed holds a dot. *)
Theorem list_texture_attributes_dotted
    (listAttr : string -> option (list string)) (history : list string) :
  list_texture_attributes listAttr history
  = flat_map (fun node => map (fun a => node ++ "." ++ a)
                            (default [] (listAttr node))) history
  /\ Forall (fun attribute => contains "." attribute = true)
       (list_texture_attributes listAttr history).
Proof.
  unfold list_texture_attributes. rewrite texture_attributes_loop_spec.
  split; [done |]. simpl.
  apply Forall_forall. intros x Hx.
  apply list_elem_of_In, in_flat_map in Hx as (node & _ & Hx).
  apply in_map_iff in Hx as (a & <- & _). apply contains_dot.
Qed.





(** X13. A texture whose path passes the first test with an upper-case
    letter in its extension is left out without notice: for a network with
    this one file attribute, [list_texture_filepaths] returns the empty
    list. *)
Theorem upper_case_texture_left_out (os : os_name)
    (glob : string -> list string)
    (getAttr : string -> result (option string))
    (listAttr : string -> option (list string))
    (node a filepath : string) (c : ascii) :
  listAttr node = Some [a] ->
  getAttr (node ++ "." ++ a) = Return (Some filepath) ->
  re_match UDIM_EXTENSION_PATTERN filepath = true ->
  In c (list_ascii_of_string (extension_of os filepath)) ->
  is_upper c = true ->
  list_texture_filepaths os glob getAttr listAttr [node] = Return [].
Proof.
  intros Hl Hg Hm Hc Hu.
  unfold list_texture_filepaths, list_texture_attributes. simpl.
  rewrite Hl. simpl. unfold texture_try. rewrite Hg. simpl.
  assert (Hne : String.eqb filepath "" = false).
  { destruct filepath; [discriminate Hm | done]. }
  rewrite Hne. simpl.
  unfold get_udim_filepaths, path_start_length. rewrite Hm. unfold index.
  rewrite (find_upper_in_lower _ filepath c); [| by apply chars_app | done].
  simpl. by rewrite contains_dot.
Qed.

Lemma upper_case_texture_left_out_witness :
  list_texture_filepaths nt (fun _ => [".1001.Tif"; ".1002.Tif"])
    (fun _ => Return (Some ".1001.Tif"))
    (fun _ => Some ["fileTextureName"]) ["file1"]
  = Return [].
Proof.
  apply (upper_case_texture_left_out nt
           (fun _ => [".1001.Tif"; ".1002.Tif"])
           (fun _ => Return (Some ".1001.Tif"))
           (fun _ => Some ["fileTextureName"])
           "file1" "fileTextureName" ".1001.Tif" "T"%char);
    try reflexivity.
  simpl. tauto.
Defined.

(** X16. The first test succeeds only on a path that begins with
    [.1001.]: a path that begins otherwise and carries neither UV token
    gets the empty list and no glob, also when it ends in [.1001.] and an
    extension. *)
Theorem numeric_udim_needs_bare_name (os : os_name)
    (glob : string -> list string) (path : string) :
  String.prefix ".1001." path = false ->
  contains UDIM_UV_PATTERN (lower path) = false ->
  first_match UDIM_UV_RE_PATTERN path = None ->
  re_match UDIM_EXTENSION_PATTERN path = false
  /\ get_udim_filepaths os glob path = Run [] (Return []).
Proof.
  intros Hp Hl Hr.
  assert (E1 : re_match UDIM_EXTENSION_PATTERN path = false).
  { apply not_true_is_false. intros Hm.
    apply extension_test_anchored in Hm. congruence. }
  split; [exact E1 |].
  unfold get_udim_filepaths, path_start_length.
  by rewrite E1, Hl, (uv_token_absent path Hr).
Qed.

Lemma numeric_udim_needs_bare_name_witness :
  re_match UDIM_EXTENSION_PATTERN "maps/wood.1001.tif" = false
  /\ get_udim_filepaths posix
       (fun _ => ["maps/wood.1001.tif"; "maps/wood.1002.tif"])
       "maps/wood.1001.tif"
     = Run [] (Return []).
Proof.
  apply (numeric_udim_needs_bare_name posix
           (fun _ => ["maps/wood.1001.tif"; "maps/wood.1002.tif"])
           "maps/wood.1001.tif"); reflexivity.
Defined.

End ShadingExtras.

(** ** Mesh paths: properties *)

Section MeshPathExtras.

Import Shading.
Local Open Scope string_scope.

Lemma split_nonempty (c : ascii) (s : string) : split c s <> [].
Proof.
  induction s as [| d s IH]; simpl; [done |].
  destruct (Ascii.eqb d c); [done |]. by destruct (split c s).
Qed.

Lemma split_absent (c : ascii) (s : string) :
  ~ In c (list_ascii_of_string s) -> split c s = [s].
Proof.
  induction s as [| d s IH]; simpl; [done |]. intros Hc.
  destruct (Ascii.eqb_spec d c) as [-> | Hd]; [tauto |].
  rewrite IH; [done | tauto].
Qed.

Lemma split_app_sep (c : ascii) (a b : string) :
  split c (a ++ String c b) = (split c a ++ split c b)%list.
Proof.
  induction a as [| d a IH]; simpl.
  - by rewrite Ascii.eqb_refl.
  - destruct (Ascii.eqb d c); [by rewrite IH |]. rewrite IH.
    pose proof (split_nonempty c a). by destruct (split c a).
Qed.

Lemma split_pieces_free (c : ascii) (s : string) :
  Forall (fun piece => ~ In c (list_ascii_of_string piece)) (split c s).
Proof.
  induction s as [| d s IH]; simpl.
  { constructor; [simpl; tauto | constructor]. }
  destruct (Ascii.eqb_spec d c) as [-> | Hd].
  { constructor; [simpl; tauto | exact IH]. }
  destruct (split c s) as [| piece pieces].
  { constructor; [simpl; tauto | constructor]. }
  inversion IH; subst. constructor; [| done]. simpl. tauto.
Qed.

Lemma split_pieces_chars (c : ascii) (s piece : string) (x : ascii) :
  In piece (split c s) -> In x (list_ascii_of_string piece) ->
  In x (list_ascii_of_string s).
Proof.
  revert piece. induction s as [| d s IH]; intros piece; simpl.
  - intros [<- | []]. done.
  - destruct (Ascii.eqb d c).
    + intros [<- | Hp]; [done |]. right. by apply (IH piece).
    + destruct (split c s) as [| p ps] eqn:E.
      * intros [<- | []]. simpl. tauto.
      * intros [<- | Hp]; simpl.
        -- intros [-> | Hx]; [by left | right]. apply (IH p); [by left | done].
        -- intros Hx. right. apply (IH piece); [by right | done].
Qed.

Lemma last_app_nonempty (l1 l2 : list string) :
  l2 <> [] -> last_piece (l1 ++ l2) = last_piece l2.
Proof.
  intros Hl. unfold last_piece. induction l1 as [| x l1 IH]; [done |].
  simpl. rewrite IH. destruct (l1 ++ l2)%list eqn:E; [| done].
  by apply app_eq_nil in E as [_ ->].
Qed.

Lemma last_piece_in (c : ascii) (s : string) :
  In (last_piece (split c s)) (split c s).
Proof.
  unfold last_piece. pose proof (split_nonempty c s) as Hn.
  destruct (exists_last Hn) as (l & x & ->).
  rewrite last_last. apply in_or_app. right. by left.
Qed.

Lemma split_join (c : ascii) (l : list string) :
  l <> [] ->
  Forall (fun piece => ~ In c (list_ascii_of_string piece)) l ->
  split c (join c l) = l.
Proof.
  intros Hn Hf. induction Hf as [| x l Hx Hf IH]; [done |].
  destruct l as [| y l]; [by apply split_absent |].
  change (join c (x :: y :: l)) with (x ++ String c (join c (y :: l))).
  rewrite split_app_sep, split_absent by done. by rewrite IH.
Qed.

Lemma chars_append (s1 s2 : string) (x : ascii) :
  In x (list_ascii_of_string (s1 ++ s2)) ->
  In x (list_ascii_of_string s1) \/ In x (list_ascii_of_string s2).
Proof.
  induction s1 as [| d s1 IH]; simpl; [tauto |].
  intros [-> | H]; [tauto |]. apply IH in H. tauto.
Qed.

(** The element [with_namespace] builds from one path element. *)
Lemma renamed_element_free (ns element : string) :
  ~ In "|"%char (list_ascii_of_string ns) ->
  ~ In "|"%char (list_ascii_of_string element) ->
  ~ In "|"%char
      (list_ascii_of_string
         (join ":" [ns; last_piece (split ":" element)])).
Proof.
  intros Hns He. simpl. intros H.
  apply chars_append in H as [H | H]; [done |].
  simpl in H. destruct H as [H | H]; [discriminate |].
  apply He. by apply (split_pieces_chars ":"%char element _ _
                        (last_piece_in ":"%char element)).
Qed.

Lemma with_namespace_elements (namespace mesh : string) :
  ~ In "|"%char (list_ascii_of_string (strip ":" namespace)) ->
  split "|" (with_namespace namespace mesh)
  = map (fun element =>
           strip ":" namespace ++ ":" ++ last_piece (split ":" element))
      (split "|" mesh).
Proof.
  intros Hns. unfold with_namespace. rewrite split_join; [done | |].
  - pose proof (split_nonempty "|"%char mesh). by destruct (split "|" mesh).
  - apply Forall_forall. intros x Hx.
    apply list_elem_of_In, in_map_iff in Hx as (e & <- & He).
    apply renamed_element_free; [done |].
    pose proof (split_pieces_free "|"%char mesh) as Hf.
    rewrite Forall_forall in Hf. apply Hf. by apply list_elem_of_In.
Qed.

(** X14. When the namespace, stripped of its colons, holds no [|], the
    renamed path has as many elements as the mesh path, and each is the
    namespace, a colon, and the name the element had after its last colon:
    the namespace an element came with is replaced, not nested. *)
Theorem with_namespace_replaces (namespace mesh : string) :
  ~ In "|"%char (list_ascii_of_string (strip ":" namespace)) ->
  split "|" (with_namespace namespace mesh)
  = map (fun element =>
           strip ":" namespace ++ ":" ++ last_piece (split ":" element))
      (split "|" mesh)
  /\ length (split "|" (with_namespace namespace mesh))
     = length (split "|" mesh)
  /\ Forall (fun element =>
               exists name, element = strip ":" namespace ++ ":" ++ name
                            /\ ~ In ":"%char (list_ascii_of_string name))
       (split "|" (with_namespace namespace mesh)).
Proof.
  intros Hns. rewrite with_namespace_elements by done.
  split; [done |]. split; [by rewrite length_map |].
  apply Forall_forall. intros x Hx.
  apply list_elem_of_In, in_map_iff in Hx as (e & <- & _).
  exists (last_piece (split ":" e)). split; [done |].
  pose proof (split_pieces_free ":"%char e) as Hf.
  rewrite Forall_forall in Hf. apply Hf, list_elem_of_In, last_piece_in.
Qed.

Lemma with_namespace_replaces_witness :
  split "|" (with_namespace ":char:" "old:grp|geo|a:b:mesh")
  = ["char:grp"; "char:geo"; "char:mesh"].
Proof.
  apply (fun H => proj1 (with_namespace_replaces ":char:"
                           "old:grp|geo|a:b:mesh" H)).
  simpl. intros H. repeat (destruct H as [H | H]; [discriminate |]). done.
Defined.

Lemma last_piece_renamed (ns element : string) :
  last_piece (split ":" (ns ++ ":" ++ last_piece (split ":" element)))
  = last_piece (split ":" element).
Proof.
  change (ns ++ ":" ++ last_piece (split ":" element))
    with (ns ++ String ":" (last_piece (split ":" element))).
  rewrite split_app_sep, last_app_nonempty by apply split_nonempty.
  rewrite split_absent; [done |].
  pose proof (split_pieces_free ":"%char element) as Hf.
  rewrite Forall_forall in Hf. apply Hf, list_elem_of_In, last_piece_in.
Qed.

Lemma with_namespace_twice (namespace mesh : string) :
  ~ In "|"%char (list_ascii_of_string (strip ":" namespace)) ->
  with_namespace namespace (with_namespace namespace mesh)
  = with_namespace namespace mesh.
Proof.
  intros Hns. unfold with_namespace at 1.
  rewrite with_namespace_elements by done.
  unfold with_namespace. f_equal. rewrite map_map.
  apply map_ext. intros e. simpl. do 2 f_equal.
  apply last_piece_renamed.
Qed.

(** X15. Giving paths that already carry the namespace changes nothing:
    when the namespace is not empty and, stripped of its colons, holds no
    [|], the calls of [assign_material] are the same for the assignments
    and for the assignments renamed once before. *)
Theorem apply_namespace_idempotent (objExists : string -> bool)
    (assignments : list (string * list string)) (transform : string)
    (skip_missing_objects : bool) (ns : string) :
  ns <> "" ->
  ~ In "|"%char (list_ascii_of_string (strip ":" ns)) ->
  apply_materials_assignment_to_transfom_childs objExists
    (map (fun '(sg, meshes) => (sg, map (with_namespace ns) meshes))
       assignments)
    transform skip_missing_objects (Some ns)
  = apply_materials_assignment_to_transfom_childs objExists assignments
      transform skip_missing_objects (Some ns).
Proof.
  intros Hne Hns. unfold apply_materials_assignment_to_transfom_childs.
  rewrite map_map. apply map_ext. intros [sg meshes]. simpl.
  destruct (String.eqb_spec ns ""); [done |]. simpl.
  destruct skip_missing_objects; f_equal; [f_equal |];
    rewrite !map_map; apply map_ext; intros m;
    by rewrite with_namespace_twice.
Qed.

Lemma apply_namespace_idempotent_witness :
  apply_materials_assignment_to_transfom_childs (fun _ => true)
    (map (fun '(sg, meshes) => (sg, map (with_namespace "char") meshes))
       [("lambert1SG", ["old:grp|old:mesh"])])
    "|root" true (Some "char")
  = apply_materials_assignment_to_transfom_childs (fun _ => true)
      [("lambert1SG", ["old:grp|old:mesh"])] "|root" true (Some "char").
Proof.
  apply (apply_namespace_idempotent (fun _ => true)
           [("lambert1SG", ["old:grp|old:mesh"])] "|root" true "char").
  - discriminate.
  - simpl. intros H. repeat (destruct H as [H | H]; [discriminate |]). done.
Defined.

End MeshPathExtras.
